(** * Literate transcript generator: a shallow embedding

    The script reads a JavaScript file, asks esprima for its comments and
    tokens, merges both lists by start position and prints block comments
    as prose and everything else as fenced code.

    Strings are [string], one character per code unit, which is what the
    script sees for ASCII sources; offsets, lines and columns are [Z]; the
    variable [previousEnd], which is declared without a value, is an
    [option Z] whose [None] is JavaScript's [undefined]. *)

From Stdlib Require Import ZArith List String Ascii Bool Lia.
From Stdlib Require Import Permutation Sorted.
Import ListNotations.

Local Open Scope string_scope.
Local Open Scope Z_scope.

(** ** Host functions the script calls *)

Module JS.

(** [String.prototype.substring(start, end)] with a numeric [end]:
    [undefined] counts as 0, both bounds are clamped to [0, length] and
    swapped when [start] is the larger one. *)
Definition substring (s : string) (start : option Z) (end_ : Z) : string :=
  let len := Z.of_nat (String.length s) in
  let intStart := match start with None => 0 | Some n => n end in
  let finalStart := Z.min (Z.max intStart 0) len in
  let finalEnd := Z.min (Z.max end_ 0) len in
  let from := Z.min finalStart finalEnd in
  let to := Z.max finalStart finalEnd in
  String.substring (Z.to_nat from) (Z.to_nat (to - from)) s.

(** The offsets [from, to) that [substring] copies. *)
Definition bounds (s : string) (start : option Z) (end_ : Z) : Z * Z :=
  let len := Z.of_nat (String.length s) in
  let intStart := match start with None => 0 | Some n => n end in
  let finalStart := Z.min (Z.max intStart 0) len in
  let finalEnd := Z.min (Z.max end_ 0) len in
  (Z.min finalStart finalEnd, Z.max finalStart finalEnd).

End JS.

Definition newline : string := String "010" "".

(** ** Spans as esprima reports them *)

Record Position := { line : Z; column : Z }.

Record SourceLocation := { start : Position }.

Record Token := {
  type : string;
  value : string;
  range : Z * Z;
  loc : SourceLocation
}.

Record Program := { comments : list Token; tokens : list Token }.

(** ** The script *)

Definition isComment (token : Token) : bool :=
  String.eqb (type token) "Block".

(** The function handed to [sort]. *)
Definition comparator (a b : Token) : Z :=
  let aLine := line (start (loc a)) in
  let bLine := line (start (loc b)) in
  let aColumn := column (start (loc a)) in
  let bColumn := column (start (loc b)) in
  if aLine <? bLine then -1 else
  if aLine >? bLine then 1 else
  if aColumn <? bColumn then -1 else 1.

(** The three variables the loop updates. *)
Record State := {
  str : string;
  inComment : bool;
  previousEnd : option Z
}.

Definition initial : State :=
  {| str := ""; inComment := true; previousEnd := None |}.

(** One call of the [forEach] callback. *)
Definition forEach_body (sourceCode : string) (st : State) (token : Token)
  : State :=
  let st1 :=
    if isComment token && negb (inComment st) then
      {| str := str st ++ (newline ++ "```");
         inComment := true;
         previousEnd := previousEnd st |}
    else if negb (isComment token) && inComment st then
      {| str := str st ++ "```js";
         inComment := false;
         previousEnd := previousEnd st |}
    else st in
  let end_ := snd (range token) in
  let str2 :=
    if negb (isComment token) then
      str st1 ++ JS.substring sourceCode (previousEnd st1) end_
    else
      str st1 ++ value token in
  {| str := str2; inComment := inComment st1; previousEnd := Some end_ |}.

Definition forEach (sourceCode : string) (allTokens : list Token)
  (st : State) : State :=
  fold_left (forEach_body sourceCode) allTokens st.

(** Everything between the sort and the write: the loop and the closing
    fence. *)
Definition transcript (sourceCode : string) (allTokens : list Token)
  : string :=
  let st := forEach sourceCode allTokens initial in
  if negb (inComment st) then str st ++ (newline ++ "```") else str st.

(** What goes to standard output. *)
Definition written (sourceCode : string) (allTokens : list Token) : string :=
  transcript sourceCode allTokens ++ newline.

(** ** The host's [Array.prototype.sort]

    The script leaves the merge to the engine, which is an interface
    here.  ECMAScript fixes the result of [sort] only for a consistent
    comparison function, and [comparator] is not one (it never answers 0).
    What every engine still delivers is a permutation of the input in
    which no span stands before one that [comparator] reports strictly
    earlier: [Conforming]. *)

Class ArraySort := {
  sort : (Token -> Token -> Z) -> list Token -> list Token
}.

Record Conforming (engine : ArraySort) : Prop := {
  sort_Permutation : forall cmp l, Permutation l (sort cmp l);
  sort_comparator_ordered :
    forall l, StronglySorted (fun x y => comparator y x <> -1)
                (sort comparator l)
}.

(** Insertion from the right end of the sorted prefix, which is kept
    reversed: [element] passes every [tmp] for which [passes element tmp]
    holds and stops at the first one for which it does not. *)
Fixpoint shift (passes : Token -> Token -> bool) (element : Token)
  (prefix_rev : list Token) : list Token :=
  match prefix_rev with
  | [] => [element]
  | tmp :: r =>
      if passes element tmp then tmp :: shift passes element r
      else element :: tmp :: r
  end.

Definition insert_all (passes : Token -> Token -> bool)
  (l prefix_rev : list Token) : list Token :=
  fold_left (fun acc element => shift passes element acc) l prefix_rev.

Definition insertion_sort (passes : Token -> Token -> bool)
  (l : list Token) : list Token :=
  rev (insert_all passes l []).

(** The loop [order = comparefn(tmp, element); if (order > 0) a[j + 1] = tmp
    else break]: the comparator is asked with the predecessor first, and
    the predecessor is moved behind the element on any positive answer. *)
Definition passes_legacy (cmp : Token -> Token -> Z) (element tmp : Token)
  : bool := cmp tmp element >? 0.

(** The other way round: the comparator is asked with the element first,
    and the element moves in front of [tmp] only on a negative answer. *)
Definition passes_stable (cmp : Token -> Token -> Z) (element tmp : Token)
  : bool := cmp element tmp <? 0.

(** Two sorts by insertion, at every length, one for each loop.  They
    are two algorithms that meet the interface, chosen because they treat
    the comparator's answer on ties in opposite ways; an engine may switch
    to another algorithm on longer arrays, and neither definition stands
    for a whole engine. *)
Definition sort_legacy (cmp : Token -> Token -> Z) : list Token -> list Token :=
  insertion_sort (passes_legacy cmp).

Definition sort_stable (cmp : Token -> Token -> Z) : list Token -> list Token :=
  insertion_sort (passes_stable cmp).

Definition legacy_engine : ArraySort := {| sort := sort_legacy |}.

Definition stable_engine : ArraySort := {| sort := sort_stable |}.

(** ** The whole script *)

Section Script.

Context {engine : ArraySort}.

(** [output.comments.concat(output.tokens).sort(...)] *)
Definition allTokens (output : Program) : list Token :=
  sort comparator (comments output ++ tokens output).

Variable Error : Type.

(** [fs.readFile] hands the callback an error or the file's text;
    [esprima.parse] throws or returns the program. *)
Variable readFile : string -> Error + string.
Variable parse : string -> Error + Program.

Inductive Effect :=
| ReadFile (file : string)
| Throw (err : Error)
| StdoutWrite (text : string).

(** The callback given to [fs.readFile]: what it does, in order. *)
Definition callback (err : option Error) (body : string) : list Effect :=
  match err with
  | Some e => [Throw e]
  | None =>
      let sourceCode := body in
      match parse sourceCode with
      | inl e => [Throw e]
      | inr output =>
          [StdoutWrite (written sourceCode (allTokens output))]
      end
  end.

Definition script (file : string) : list Effect :=
  ReadFile file ::
  match readFile file with
  | inl e => callback (Some e) ""
  | inr body => callback None body
  end.

End Script.

Arguments ReadFile {Error}.
Arguments Throw {Error}.
Arguments StdoutWrite {Error}.

(** ** The output as a sequence of pieces

    Each [str += ...] of the loop appends one piece.  [emitted] lists them
    in order, with the arguments of every [substring] call as the loop
    passes them, so that fences, code slices and comment values can be
    told apart after the fact. *)

Inductive Piece :=
| CloseFence
| OpenFence
| Slice (from : option Z) (end_ : Z)
| Prose (from : option Z) (end_ : Z) (text : string).

Definition render (sourceCode : string) (p : Piece) : string :=
  match p with
  | CloseFence => newline ++ "```"
  | OpenFence => "```js"
  | Slice from end_ => JS.substring sourceCode from end_
  | Prose _ _ text => text
  end.

Fixpoint render_all (sourceCode : string) (ps : list Piece) : string :=
  match ps with
  | [] => ""
  | p :: ps' => render sourceCode p ++ render_all sourceCode ps'
  end.

(** The pieces one callback call appends, given the two variables it
    reads. *)
Definition body_pieces (inC : bool) (prev : option Z) (token : Token)
  : list Piece :=
  let end_ := snd (range token) in
  (if isComment token && negb inC then [CloseFence]
   else if negb (isComment token) && inC then [OpenFence]
   else []) ++
  [if negb (isComment token) then Slice prev end_
   else Prose prev end_ (value token)].

Fixpoint emitted (allTokens : list Token) (inC : bool) (prev : option Z)
  : list Piece :=
  match allTokens with
  | [] => []
  | token :: rest =>
      body_pieces inC prev token ++
      emitted rest (isComment token) (Some (snd (range token)))
  end.

(** The state of [inComment] after the loop. *)
Definition final_inComment (allTokens : list Token) (inC : bool) : bool :=
  match rev allTokens with
  | [] => inC
  | token :: _ => isComment token
  end.

Definition closing (inC : bool) : list Piece :=
  if negb inC then [CloseFence] else [].

Definition transcript_pieces (allTokens : list Token) : list Piece :=
  emitted allTokens true None ++ closing (final_inComment allTokens true).

(** Projections of a piece list. *)
Definition is_fence (p : Piece) : bool :=
  match p with CloseFence | OpenFence => true | _ => false end.

Definition fences (ps : list Piece) : list Piece := filter is_fence ps.

Definition is_slice (p : Piece) : bool :=
  match p with Slice _ _ => true | _ => false end.

Definition code_slices (sourceCode : string) (ps : list Piece)
  : list string :=
  map (render sourceCode) (filter is_slice ps).

Fixpoint count_open (ps : list Piece) : nat :=
  match ps with
  | [] => 0
  | OpenFence :: r => S (count_open r)
  | _ :: r => count_open r
  end.

Fixpoint count_close (ps : list Piece) : nat :=
  match ps with
  | [] => 0
  | CloseFence :: r => S (count_close r)
  | _ :: r => count_close r
  end.

(** Fence depth after each marker, starting from [d]: [None] as soon as a
    fence opens inside an open one or closes with none open. *)
Fixpoint depth_after (ps : list Piece) (open : bool) : option bool :=
  match ps with
  | [] => Some open
  | OpenFence :: r => if open then None else depth_after r true
  | CloseFence :: r => if open then depth_after r false else None
  | _ :: r => depth_after r open
  end.

(** The range end the loop remembers after the last span. *)
Definition final_previousEnd (allTokens : list Token) (prev : option Z)
  : option Z :=
  match rev allTokens with
  | [] => prev
  | token :: _ => Some (snd (range token))
  end.

(** ** Positions and order *)

Definition startLine (t : Token) : Z := line (start (loc t)).
Definition startColumn (t : Token) : Z := column (start (loc t)).

(** Two spans that start at the same line and column. *)
Definition tied (a b : Token) : Prop :=
  startLine a = startLine b /\ startColumn a = startColumn b.

(** [x] occurs somewhere before [y] in the list. *)
Inductive before (x y : Token) : list Token -> Prop :=
| before_here l : In y l -> before x y (x :: l)
| before_later z l : before x y l -> before x y (z :: l).

(** ** Well-formed merged sequences and what the slices cover *)

(** What [previousEnd] counts as when it is used as an offset. *)
Definition offset (previous : option Z) : Z :=
  match previous with None => 0 | Some n => n end.

(** Range ends never go down along the sequence, starting from what
    [previousEnd] holds. *)
Fixpoint ascending (prev : option Z) (l : list Token) : bool :=
  match l with
  | [] => true
  | token :: rest =>
      (offset prev <=? snd (range token))
      && ascending (Some (snd (range token))) rest
  end.

(** The stretch of source a piece stands for: a code slice is that stretch;
    at a block comment the loop moves [previousEnd] to the comment's end
    and emits the comment's value in place of the stretch. *)
Definition stretch (sourceCode : string) (p : Piece) : string :=
  match p with
  | Slice from end_ => JS.substring sourceCode from end_
  | Prose from end_ _ => JS.substring sourceCode from end_
  | _ => ""
  end.

Fixpoint restore (sourceCode : string) (ps : list Piece) : string :=
  match ps with
  | [] => ""
  | p :: ps' => stretch sourceCode p ++ restore sourceCode ps'
  end.

Fixpoint glue (l : list string) : string :=
  match l with
  | [] => ""
  | s :: r => s ++ glue r
  end.

Definition sourceLength (sourceCode : string) : Z :=
  Z.of_nat (String.length sourceCode).

(** ** Concrete inputs *)

Definition span (ty text : string) (from to ln col : Z) : Token :=
  {| type := ty; value := text; range := (from, to);
     loc := {| start := {| line := ln; column := col |} |} |}.

(** ["/* hello */\nvar x = 1;"] and what esprima reports for it; the
    comment's body is left open. *)
Definition hello_source : string := "/* hello */" ++ newline ++ "var x = 1;".

Definition hello_comment (body : string) : Token := span "Block" body 0 11 1 0.

Definition hello_tokens : list Token :=
  [ span "Keyword" "var" 12 15 2 0;
    span "Identifier" "x" 16 17 2 4;
    span "Punctuator" "=" 18 19 2 6;
    span "Numeric" "1" 20 21 2 8;
    span "Punctuator" ";" 21 22 2 9 ].

Definition hello_program (body : string) : Program :=
  {| comments := [hello_comment body]; tokens := hello_tokens |}.

(** ["x;\n"]: two tokens and a final newline that belongs to neither. *)
Definition trailing_source : string := "x;" ++ newline.

Definition trailing_program : Program :=
  {| comments := [];
     tokens := [ span "Identifier" "x" 0 1 1 0;
                 span "Punctuator" ";" 1 2 1 1 ] |}.

(** ["x"]: one token, nothing else. *)
Definition single_x : Program :=
  {| comments := []; tokens := [span "Identifier" "x" 0 1 1 0] |}.

(** ["/* a */\n// b"]: a block comment followed by a line comment. *)
Definition two_comments_source : string := "/* a */" ++ newline ++ "// b".

Definition two_comments : Program :=
  {| comments := [ span "Block" " a " 0 7 1 0; span "Line" " b" 8 12 2 0 ];
     tokens := [] |}.


(** A comment and a token reported at the same line and column. *)
Definition tied_comment : Token := span "Block" "c" 0 5 1 0.
Definition tied_token : Token := span "Identifier" "x" 0 1 1 0.

Definition tied_program : Program :=
  {| comments := [tied_comment]; tokens := [tied_token] |}.

(** ** Further readings of the pieces *)

(** Line and column together. *)
Definition position (t : Token) : Z * Z := (startLine t, startColumn t).

(** The comment values among the pieces, and the ends of the code slices,
    in the order they are emitted. *)
Fixpoint prose_texts (ps : list Piece) : list string :=
  match ps with
  | [] => []
  | Prose _ _ text :: r => text :: prose_texts r
  | _ :: r => prose_texts r
  end.

Fixpoint slice_ends (ps : list Piece) : list Z :=
  match ps with
  | [] => []
  | Slice _ end_ :: r => end_ :: slice_ends r
  | _ :: r => slice_ends r
  end.

(** Like [depth_after], and also [None] when a comment value is emitted
    while a fence is open or a code slice while none is. *)
Fixpoint placed (ps : list Piece) (open : bool) : option bool :=
  match ps with
  | [] => Some open
  | OpenFence :: r => if open then None else placed r true
  | CloseFence :: r => if open then placed r false else None
  | Slice _ _ :: r => if open then placed r open else None
  | Prose _ _ _ :: r => if open then None else placed r open
  end.

(** What the loop reads of a span: its kind, its range end and, for a
    block comment, its value. *)
Definition relevant (t : Token) : bool * Z * string :=
  (isComment t, snd (range t), if isComment t then value t else "").

Definition is_write {Error : Type} (e : Effect Error) : bool :=
  match e with StdoutWrite _ => true | _ => false end.

(** ** The tutorial's delayed computations

    The article's code passes node-style callbacks.  A callback takes an
    error and a value; a call with one argument leaves the value
    [undefined].  Running a function with a callback yields an answer of
    some type [R], which stands for everything the program does from
    there on. *)

Inductive Value :=
| undefined
| null
| Str (s : string)
| Buffer (content : string)
| ErrorObject (message : string).

(** What [if (err)] tests. *)
Definition truthy (v : Value) : bool :=
  match v with
  | undefined | null => false
  | Str s => negb (String.eqb s "")
  | _ => true
  end.

Section DelayedComputation.

Context {R : Type}.

Definition Callback : Type := Value -> Value -> R.

(** A delayed computation in the article's sense. *)
Definition Delayed : Type := Callback -> R.

(** An argument of a host function is a value or a callback; a host
    function sees its [this] and its arguments. *)
Inductive Arg :=
| Val (v : Value)
| Fun (callback : Callback).

Definition Fn : Type := Value -> list Arg -> R.

(** [f.bind(thisArg, ...bound)]: the first argument of [bind] becomes
    [this], the others are put in front of the call's arguments. *)
Definition bind (f : Fn) (thisArg : Value) (bound : list Arg) : Fn :=
  fun _ args => f thisArg (bound ++ args)%list.

(** The plain call [f(callback)]. *)
Definition call (f : Fn) : Delayed :=
  fun callback => f undefined [Fun callback].

(** A delayed computation that treats callbacks with the same behaviour
    alike, as every function written in the language does. *)
Definition respects_callbacks (m : Delayed) : Prop :=
  forall k1 k2 : Callback, (forall e v, k1 e v = k2 e v) -> m k1 = m k2.

(** What the article requires from node and npm. *)
Class Node := {
  fs : Value;
  fs_readFile : Fn;
  path_join : Value -> Value -> Value;
  process_cwd : Value;
  safeParse : Value -> Delayed;
  js_String : Value -> Value
}.

Context {node : Node}.

(** [readPackageJson] and [readProject], written out. *)
Definition readPackageJson : Delayed :=
  fun callback =>
    fs_readFile fs
      [Val (path_join process_cwd (Str "package.json")); Fun callback].

Definition readProject : Delayed :=
  fun callback => fs_readFile fs [Val process_cwd; Fun callback].

(** The same two names, made with [fs.readFile.bind(path)]. *)
Definition readPackageJson_bound : Fn :=
  bind fs_readFile (path_join process_cwd (Str "package.json")) [].

Definition readProject_bound : Fn := bind fs_readFile process_cwd [].

(** [readPackageJson(folder)], the longer form and the [bind] form. *)
Definition readPackageJsonInFolder (folder : Value) : Delayed :=
  fun callback =>
    fs_readFile fs [Val (path_join folder (Str "package.json")); Fun callback].

Definition readPackageJsonInFolder_bound (folder : Value) : Fn :=
  bind fs_readFile (path_join folder (Str "package.json")) [].

Definition profilesFolder : Delayed :=
  fun callback => callback null (Str "~/.profiles").

(** [getProfile] with the callbacks written out. *)
Definition getProfileByName (profileName : string) : Delayed :=
  fun callback =>
    profilesFolder (fun err profilesFolder_ =>
      if truthy err then callback err undefined else
      let fileUri :=
        path_join profilesFolder_ (Str (profileName ++ ".json")) in
      let file := bind fs_readFile null [Val fileUri] in
      call file (fun err file_ =>
        if truthy err then callback err undefined else
        let json := safeParse (js_String file_) in
        json callback)).

Definition chain (delayedComputation : Delayed)
  (transformation : Value -> Delayed) : Delayed :=
  fun callback =>
    delayedComputation (fun err value =>
      if truthy err then callback err undefined
      else transformation value callback).

(** [getProfile] with two [chain]s and a function around [safeParse]. *)
Definition getProfile_chained (profileName : string) : Delayed :=
  let file := chain profilesFolder (fun profilesFolder_ =>
    let fileUri :=
      path_join profilesFolder_ (Str (profileName ++ ".json")) in
    call (bind fs_readFile null [Val fileUri])) in
  let json := chain file (fun content => safeParse content) in
  json.

(** [getProfile] as the article leaves it. *)
Definition getProfile (profileName : string) : Delayed :=
  let file := chain profilesFolder (fun profilesFolder_ =>
    let fileUri :=
      path_join profilesFolder_ (Str (profileName ++ ".json")) in
    call (bind fs_readFile null [Val fileUri])) in
  chain file safeParse.

End DelayedComputation.


(** A node whose files all hold [{}], whose parser hands the text on, and
    whose answers are the value the last callback got. *)
Definition echo_node : @Node Value :=
  {| fs := Str "fs";
     fs_readFile := fun _ args =>
       match args with
       | [Val _; Fun callback] => callback null (Buffer "{}")
       | _ => ErrorObject "path must be a string"
       end;
     path_join := fun a b =>
       match a, b with
       | Str x, Str y => Str (x ++ "/" ++ y)
       | _, _ => undefined
       end;
     process_cwd := Str "/home";
     safeParse := fun text callback => callback null text;
     js_String := fun v =>
       match v with Buffer c => Str c | _ => v end |}.

(** A node on which every read fails. *)
Definition failing_node : @Node Value :=
  {| fs := Str "fs";
     fs_readFile := fun _ args =>
       match args with
       | [Val _; Fun callback] => callback (ErrorObject "ENOENT") undefined
       | _ => ErrorObject "path must be a string"
       end;
     path_join := fun a b =>
       match a, b with
       | Str x, Str y => Str (x ++ "/" ++ y)
       | _, _ => undefined
       end;
     process_cwd := Str "/home";
     safeParse := fun text callback => callback null text;
     js_String := fun v =>
       match v with Buffer c => Str c | _ => v end |}.

(** * Lemmas *)

(** ** Strings *)

Lemma append_assoc (s1 s2 s3 : string) :
  ((s1 ++ s2) ++ s3)%string = (s1 ++ (s2 ++ s3))%string.
Proof.
  induction s1 as [|c s1 IH]; simpl; [reflexivity | now rewrite IH].
Qed.

Lemma append_empty_r (s : string) : (s ++ "")%string = s.
Proof.
  induction s as [|c s IH]; simpl; [reflexivity | now rewrite IH].
Qed.

Lemma substring_whole (s : string) :
  String.substring 0 (String.length s) s = s.
Proof.
  induction s as [|c s IH]; simpl; [reflexivity | now rewrite IH].
Qed.

Lemma substring_of_empty (n m : nat) : String.substring n m "" = "".
Proof. destruct n, m; reflexivity. Qed.

(** Two adjacent substrings make one. *)
Lemma substring_adjacent (s : string) : forall a m k : nat,
  (String.substring a m s ++ String.substring (a + m) k s)%string
  = String.substring a (m + k) s.
Proof.
  induction s as [|c s IH]; intros a m k.
  - now rewrite !substring_of_empty.
  - destruct a as [|a].
    + destruct m as [|m]; simpl.
      * reflexivity.
      * f_equal. apply (IH 0%nat m k).
    + simpl. apply IH.
Qed.

Lemma render_all_app (sourceCode : string) (ps qs : list Piece) :
  render_all sourceCode (ps ++ qs)
  = (render_all sourceCode ps ++ render_all sourceCode qs)%string.
Proof.
  induction ps as [|p ps IH]; simpl; [reflexivity|].
  now rewrite IH, append_assoc.
Qed.

Lemma substring_bounds (s : string) (from : option Z) (end_ : Z) :
  JS.substring s from end_
  = String.substring (Z.to_nat (fst (JS.bounds s from end_)))
      (Z.to_nat (snd (JS.bounds s from end_) - fst (JS.bounds s from end_))) s.
Proof. reflexivity. Qed.

(** Slices that meet end to end join up, whatever the text's length. *)
Lemma substring_join (s : string) (from : option Z) (mid end_ : Z) :
  offset from <= mid ->
  mid <= end_ \/ Z.of_nat (String.length s) <= end_ ->
  (JS.substring s from mid ++ JS.substring s (Some mid) end_)%string
  = JS.substring s from end_.
Proof.
  intros H1 H2. unfold JS.substring.
  fold (offset from). cbn zeta.
  set (len := Z.of_nat (String.length s)).
  assert (Hlen : 0 <= len) by (unfold len; lia).
  set (a := Z.min (Z.max (offset from) 0) len).
  set (b := Z.min (Z.max mid 0) len).
  set (c := Z.min (Z.max end_ 0) len).
  assert (Hab : 0 <= a <= b) by (unfold a, b; lia).
  assert (Hbc : b <= c) by (unfold b, c; lia).
  rewrite !Z.min_l, !Z.max_r by lia.
  replace (Z.to_nat b) with (Z.to_nat a + Z.to_nat (b - a))%nat by lia.
  rewrite substring_adjacent. f_equal. lia.
Qed.

Lemma substring_from_start (s : string) :
  JS.substring s None (Z.of_nat (String.length s)) = s.
Proof.
  unfold JS.substring. cbn zeta.
  set (len := Z.of_nat (String.length s)).
  assert (Hlen : 0 <= len) by (unfold len; lia).
  rewrite (Z.max_l 0 0), (Z.min_l 0 len), (Z.max_l len 0), (Z.min_l len len),
    (Z.min_l 0 len), (Z.max_r 0 len) by lia.
  replace (Z.to_nat (len - 0)) with (String.length s) by (unfold len; lia).
  apply substring_whole.
Qed.

(** ** The loop and its pieces *)

Lemma final_inComment_cons (token : Token) (rest : list Token) (inC : bool) :
  final_inComment (token :: rest) inC = final_inComment rest (isComment token).
Proof.
  unfold final_inComment. simpl.
  destruct (rev rest) as [|x xs] eqn:E; simpl; [|reflexivity].
  apply (f_equal (@rev Token)) in E. rewrite rev_involutive in E.
  subst rest. reflexivity.
Qed.

Lemma final_previousEnd_cons (token : Token) (rest : list Token)
  (prev : option Z) :
  final_previousEnd (token :: rest) prev
  = final_previousEnd rest (Some (snd (range token))).
Proof.
  unfold final_previousEnd. simpl.
  destruct (rev rest) as [|x xs] eqn:E; simpl; [|reflexivity].
  apply (f_equal (@rev Token)) in E. rewrite rev_involutive in E.
  subst rest. reflexivity.
Qed.



Lemma forEach_body_pieces (sourceCode : string) (st : State) (token : Token) :
  forEach_body sourceCode st token
  = {| str := str st ++ render_all sourceCode
               (body_pieces (inComment st) (previousEnd st) token);
       inComment := isComment token;
       previousEnd := Some (snd (range token)) |}.
Proof.
  unfold forEach_body, body_pieces.
  destruct st as [s inC prev].
  destruct (isComment token), inC; simpl;
    rewrite ?append_assoc, ?append_empty_r; reflexivity.
Qed.

Lemma forEach_pieces (sourceCode : string) (allTokens : list Token) :
  forall st,
  forEach sourceCode allTokens st
  = {| str := str st ++ render_all sourceCode
               (emitted allTokens (inComment st) (previousEnd st));
       inComment := final_inComment allTokens (inComment st);
       previousEnd := final_previousEnd allTokens (previousEnd st) |}.
Proof.
  unfold forEach.
  induction allTokens as [|token rest IH]; intros st; simpl.
  - rewrite append_empty_r. now destruct st.
  - rewrite IH, forEach_body_pieces. simpl.
    rewrite final_inComment_cons, final_previousEnd_cons.
    now rewrite render_all_app, append_assoc.
Qed.

Lemma transcript_render (sourceCode : string) (allTokens : list Token) :
  transcript sourceCode allTokens
  = render_all sourceCode (transcript_pieces allTokens).
Proof.
  unfold transcript, transcript_pieces, closing.
  rewrite forEach_pieces. simpl.
  rewrite render_all_app.
  destruct (final_inComment allTokens true); simpl;
    now rewrite ?append_empty_r.
Qed.

Lemma emitted_app (l1 l2 : list Token) : forall inC prev,
  emitted (l1 ++ l2) inC prev
  = (emitted l1 inC prev
     ++ emitted l2 (final_inComment l1 inC) (final_previousEnd l1 prev))%list.
Proof.
  induction l1 as [|token rest IH]; intros inC prev.
  - reflexivity.
  - simpl. rewrite IH, final_inComment_cons, final_previousEnd_cons.
    now rewrite <- app_assoc.
Qed.

(** ** The comparator *)

Ltac comparator_cases :=
  unfold comparator, tied, startLine, startColumn in *;
  repeat match goal with
  | |- context [?x <? ?y] => destruct (Z.ltb_spec x y)
  | |- context [?x >? ?y] => destruct (Z.gtb_spec x y)
  | H : context [?x <? ?y] |- _ => destruct (Z.ltb_spec x y)
  | H : context [?x >? ?y] |- _ => destruct (Z.gtb_spec x y)
  end; try lia.

Lemma comparator_values (a b : Token) :
  comparator a b = -1 \/ comparator a b = 1.
Proof. comparator_cases. Qed.

Lemma comparator_earlier (a b : Token) :
  comparator a b = -1 <->
  startLine a < startLine b \/
  (startLine a = startLine b /\ startColumn a < startColumn b).
Proof. split; intros H; comparator_cases. Qed.

Lemma comparator_tied (a b : Token) : tied a b -> comparator a b = 1.
Proof. intros [H1 H2]. comparator_cases. Qed.

Lemma comparator_strict (a b : Token) :
  comparator a b = -1 -> comparator b a = 1.
Proof. intros H. comparator_cases. Qed.

(** "Not strictly earlier" is transitive. *)
Lemma comparator_not_earlier_trans (x y z : Token) :
  comparator x y <> -1 -> comparator y z <> -1 -> comparator x z <> -1.
Proof.
  rewrite !comparator_earlier. unfold startLine, startColumn. lia.
Qed.

Lemma comparator_tied_not_earlier (x c t : Token) :
  tied c t -> comparator x c <> -1 -> comparator x t <> -1.
Proof.
  intros [H1 H2]. rewrite !comparator_earlier.
  unfold startLine, startColumn in *. lia.
Qed.

(** ** Insertion sorts meet the interface *)

Lemma before_split (x y : Token) (l : list Token) :
  before x y l <-> exists l1 l2 l3, l = (l1 ++ x :: l2 ++ y :: l3)%list.
Proof.
  split.
  - induction 1 as [l Hin | z l _ (l1 & l2 & l3 & ->)].
    + apply in_split in Hin as (l2 & l3 & ->). now exists [], l2, l3.
    + now exists (z :: l1), l2, l3.
  - intros (l1 & l2 & l3 & ->).
    induction l1 as [|z l1 IH]; simpl.
    + apply before_here, in_elt.
    + now apply before_later.
Qed.

Lemma before_rev (x y : Token) (l : list Token) :
  before x y l -> before y x (rev l).
Proof.
  rewrite !before_split. intros (l1 & l2 & l3 & ->).
  exists (rev l3), (rev l2), (rev l1).
  rewrite rev_app_distr. simpl. rewrite rev_app_distr. simpl.
  now rewrite <- !app_assoc.
Qed.

Lemma before_concat (x y : Token) (l1 l2 : list Token) :
  In x l1 -> In y l2 -> before x y (l1 ++ l2).
Proof.
  intros H1 H2.
  apply in_split in H1 as (a & b & ->), H2 as (c & d & ->).
  apply before_split. exists a, (b ++ c)%list, d.
  now rewrite <- !app_assoc.
Qed.

Lemma StronglySorted_snoc {A} (R : A -> A -> Prop) (l : list A) (a : A) :
  StronglySorted R l -> Forall (fun x => R x a) l ->
  StronglySorted R (l ++ [a]).
Proof.
  induction 1 as [|x l Hs IH Hx]; intros Hall; simpl.
  - repeat constructor.
  - inversion Hall; subst. constructor.
    + now apply IH.
    + apply Forall_app. split; [assumption | now constructor].
Qed.

Lemma StronglySorted_rev {A} (R : A -> A -> Prop) (l : list A) :
  StronglySorted (fun x y => R y x) l -> StronglySorted R (rev l).
Proof.
  induction 1 as [|x l Hs IH Hx]; simpl.
  - constructor.
  - apply StronglySorted_snoc; [assumption|].
    now apply Forall_rev.
Qed.

Section Insertion.

Variable passes : Token -> Token -> bool.

(** What the interface needs of the test when it is built on
    [comparator]: a strictly earlier element passes, and none passes a
    strictly earlier one. *)
Hypothesis passes_earlier :
  forall element tmp, comparator element tmp = -1 ->
    passes element tmp = true.
Hypothesis stops_at_earlier :
  forall element tmp, comparator tmp element = -1 ->
    passes element tmp = false.

Lemma shift_Permutation (e : Token) (l : list Token) :
  Permutation (e :: l) (shift passes e l).
Proof.
  induction l as [|tmp r IH]; simpl.
  - reflexivity.
  - destruct (passes e tmp); [|reflexivity].
    rewrite perm_swap. now constructor.
Qed.

Lemma In_shift (x e : Token) (l : list Token) :
  In x (shift passes e l) <-> x = e \/ In x l.
Proof.
  split; intros H.
  - apply (Permutation_in x (Permutation_sym (shift_Permutation e l))) in H.
    destruct H; auto.
  - apply (Permutation_in x (shift_Permutation e l)).
    destruct H; [left | right]; auto.
Qed.

Lemma shift_before (x y e : Token) (l : list Token) :
  before x y l -> before x y (shift passes e l).
Proof.
  induction 1 as [l Hin | z l Hb IH]; simpl.
  - destruct (passes e x).
    + apply before_here, In_shift. now right.
    + now apply before_later, before_here.
  - destruct (passes e z).
    + now apply before_later.
    + now apply before_later, before_later.
Qed.

(** The reversed prefix stays sorted downwards. *)
Lemma shift_sorted (e : Token) (l : list Token) :
  StronglySorted (fun x y => comparator x y <> -1) l ->
  StronglySorted (fun x y => comparator x y <> -1) (shift passes e l).
Proof.
  induction 1 as [|tmp r Hs IH Hall]; simpl.
  - repeat constructor.
  - destruct (passes e tmp) eqn:E.
    + constructor; [assumption|].
      apply Forall_forall. intros y Hy.
      apply In_shift in Hy as [->|Hy].
      * intros C. apply stops_at_earlier in C. congruence.
      * rewrite Forall_forall in Hall. now apply Hall.
    + assert (He : comparator e tmp <> -1).
      { intros C. apply passes_earlier in C. congruence. }
      constructor; [now constructor|].
      constructor; [assumption|].
      eapply Forall_impl; [|exact Hall].
      intros y Hy. cbv beta in Hy.
      now apply (comparator_not_earlier_trans e tmp y).
Qed.

Lemma insert_all_Permutation (l : list Token) : forall acc,
  Permutation (rev l ++ acc) (insert_all passes l acc).
Proof.
  induction l as [|e l IH]; intros acc; simpl.
  - reflexivity.
  - rewrite <- IH, <- app_assoc. simpl.
    apply Permutation_app_head.
    apply shift_Permutation.
Qed.

Lemma insert_all_sorted (l : list Token) : forall acc,
  StronglySorted (fun x y => comparator x y <> -1) acc ->
  StronglySorted (fun x y => comparator x y <> -1) (insert_all passes l acc).
Proof.
  induction l as [|e l IH]; intros acc H; simpl; [assumption|].
  now apply IH, shift_sorted.
Qed.

Lemma insert_all_before (x y : Token) (l : list Token) : forall acc,
  before x y acc -> before x y (insert_all passes l acc).
Proof.
  induction l as [|e l IH]; intros acc H; simpl; [assumption|].
  now apply IH, shift_before.
Qed.

Lemma insert_all_In (x : Token) (l acc : list Token) :
  In x acc -> In x (insert_all passes l acc).
Proof.
  intros H. apply (Permutation_in x (insert_all_Permutation l acc)).
  apply in_or_app. now right.
Qed.

Lemma insertion_sort_Permutation (l : list Token) :
  Permutation l (insertion_sort passes l).
Proof.
  unfold insertion_sort.
  rewrite <- (insert_all_Permutation l []), app_nil_r.
  rewrite <- Permutation_rev, <- Permutation_rev. reflexivity.
Qed.

Lemma insertion_sort_ordered (l : list Token) :
  StronglySorted (fun x y => comparator y x <> -1)
    (insertion_sort passes l).
Proof.
  unfold insertion_sort.
  apply StronglySorted_rev, insert_all_sorted. constructor.
Qed.

End Insertion.

Lemma legacy_passes_earlier (element tmp : Token) :
  comparator element tmp = -1 -> passes_legacy comparator element tmp = true.
Proof.
  intros H. unfold passes_legacy. now rewrite (comparator_strict _ _ H).
Qed.

Lemma legacy_stops_at_earlier (element tmp : Token) :
  comparator tmp element = -1 -> passes_legacy comparator element tmp = false.
Proof. intros H. unfold passes_legacy. now rewrite H. Qed.

Lemma stable_passes_earlier (element tmp : Token) :
  comparator element tmp = -1 -> passes_stable comparator element tmp = true.
Proof. intros H. unfold passes_stable. now rewrite H. Qed.

Lemma stable_stops_at_earlier (element tmp : Token) :
  comparator tmp element = -1 -> passes_stable comparator element tmp = false.
Proof.
  intros H. unfold passes_stable. now rewrite (comparator_strict _ _ H).
Qed.

(** Both engines conform. *)
Lemma legacy_conforming : Conforming legacy_engine.
Proof.
  split.
  - intros cmp l. apply insertion_sort_Permutation.
  - apply insertion_sort_ordered;
      auto using legacy_passes_earlier, legacy_stops_at_earlier.
Qed.

Lemma stable_conforming : Conforming stable_engine.
Proof.
  split.
  - intros cmp l. apply insertion_sort_Permutation.
  - apply insertion_sort_ordered;
      auto using stable_passes_earlier, stable_stops_at_earlier.
Qed.

(** *** Where position-tied spans end up *)

Lemma legacy_shift_tie (c t : Token) (acc : list Token) :
  StronglySorted (fun x y => comparator x y <> -1) acc ->
  In c acc -> tied c t ->
  before c t (shift (passes_legacy comparator) t acc).
Proof.
  intros Hs Hin Htie.
  induction Hs as [|tmp r Hs IH Hall]; [contradiction|].
  assert (Hpass : passes_legacy comparator t tmp = true).
  { unfold passes_legacy.
    assert (comparator tmp t <> -1).
    { apply (comparator_tied_not_earlier tmp c t Htie).
      destruct Hin as [->|Hin].
      - now rewrite (comparator_tied c c).
      - rewrite Forall_forall in Hall. now apply Hall. }
    destruct (comparator_values tmp t) as [E|E]; [contradiction|].
    now rewrite E. }
  simpl. rewrite Hpass.
  destruct Hin as [->|Hin].
  - apply before_here, In_shift. now left.
  - now apply before_later, IH.
Qed.

Lemma stable_shift_tie (c t : Token) (acc : list Token) :
  In c acc -> tied c t ->
  before t c (shift (passes_stable comparator) t acc).
Proof.
  intros Hin Htie.
  induction acc as [|tmp r IH]; [contradiction|].
  simpl. destruct (passes_stable comparator t tmp) eqn:E.
  - destruct Hin as [->|Hin].
    + unfold passes_stable in E.
      rewrite (comparator_tied t c) in E; [discriminate|].
      destruct Htie. now split.
    + now apply before_later, IH.
  - now apply before_here.
Qed.

Lemma legacy_insert_all_tie (c t : Token) (l : list Token) : forall acc,
  StronglySorted (fun x y => comparator x y <> -1) acc ->
  tied c t ->
  before c t l \/ (In c acc /\ In t l) ->
  before c t (insert_all (passes_legacy comparator) l acc).
Proof.
  induction l as [|e l IH]; intros acc Hs Htie H.
  - destruct H as [H|[_ []]]. inversion H.
  - simpl.
    assert (Hs' : StronglySorted (fun x y => comparator x y <> -1)
                    (shift (passes_legacy comparator) e acc)).
    { apply shift_sorted; auto using legacy_passes_earlier,
        legacy_stops_at_earlier. }
    destruct H as [H|[Hc [->|Ht]]].
    + inversion H; subst.
      * apply IH; auto. right. split; [|assumption].
        apply In_shift. now left.
      * apply IH; auto.
    + apply insert_all_before. now apply legacy_shift_tie.
    + apply IH; auto. right. split; [|assumption].
      apply In_shift. now right.
Qed.

Lemma stable_insert_all_tie (c t : Token) (l : list Token) : forall acc,
  tied c t ->
  before c t l \/ (In c acc /\ In t l) ->
  before t c (insert_all (passes_stable comparator) l acc).
Proof.
  induction l as [|e l IH]; intros acc Htie H.
  - destruct H as [H|[_ []]]. inversion H.
  - simpl. destruct H as [H|[Hc [->|Ht]]].
    + inversion H; subst.
      * apply IH; auto. right. split; [|assumption].
        apply In_shift. now left.
      * apply IH; auto.
    + apply insert_all_before. now apply stable_shift_tie.
    + apply IH; auto. right. split; [|assumption].
      apply In_shift. now right.
Qed.

(** Plain insertion reverses position-tied spans, stable insertion keeps
    them as they came. *)
Lemma legacy_reverses_ties (c t : Token) (l : list Token) :
  tied c t -> before c t l -> before t c (sort_legacy comparator l).
Proof.
  intros Htie H. apply before_rev.
  apply (legacy_insert_all_tie c t l []); auto. constructor.
Qed.

Lemma stable_keeps_ties (c t : Token) (l : list Token) :
  tied c t -> before c t l -> before c t (sort_stable comparator l).
Proof.
  intros Htie H. apply before_rev.
  apply (stable_insert_all_tie c t l []); auto.
Qed.

(** ** Laying stretches end to end *)

Lemma substring_none (s : string) (from : option Z) (end_ : Z) :
  JS.substring s from end_ = JS.substring s (Some (offset from)) end_.
Proof. now destruct from. Qed.

Lemma substring_zero_length (s : string) : forall n : nat,
  String.substring n 0 s = "".
Proof.
  induction s as [|c s IH]; intros [|n]; simpl; auto.
Qed.

Lemma substring_nothing (s : string) (from : option Z) :
  JS.substring s from (offset from) = "".
Proof.
  unfold JS.substring. fold (offset from). cbn zeta.
  rewrite Z.min_id, Z.max_id, Z.sub_diag.
  apply substring_zero_length.
Qed.

Lemma substring_beyond (s : string) (end_ : Z) :
  Z.of_nat (String.length s) <= end_ -> JS.substring s None end_ = s.
Proof.
  intros H. rewrite <- (substring_from_start s) at 2.
  unfold JS.substring. cbn zeta.
  set (len := Z.of_nat (String.length s)) in *.
  assert (Hlen : 0 <= len) by (unfold len; lia).
  replace (Z.min (Z.max end_ 0) len) with len by lia.
  replace (Z.min (Z.max len 0) len) with len by lia.
  reflexivity.
Qed.

Lemma restore_app (sourceCode : string) (ps qs : list Piece) :
  restore sourceCode (ps ++ qs)
  = (restore sourceCode ps ++ restore sourceCode qs)%string.
Proof.
  induction ps as [|p ps IH]; simpl; [reflexivity|].
  now rewrite IH, append_assoc.
Qed.

Lemma restore_body_pieces (sourceCode : string) (inC : bool)
  (prev : option Z) (token : Token) :
  restore sourceCode (body_pieces inC prev token)
  = JS.substring sourceCode prev (snd (range token)).
Proof.
  unfold body_pieces.
  destruct (isComment token), inC; simpl; now rewrite append_empty_r.
Qed.

Lemma restore_closing (sourceCode : string) (inC : bool) :
  restore sourceCode (closing inC) = "".
Proof. now destruct inC. Qed.

Lemma ascending_final (l : list Token) : forall prev,
  ascending prev l = true -> offset prev <= offset (final_previousEnd l prev).
Proof.
  induction l as [|token rest IH]; intros prev H.
  - unfold final_previousEnd. simpl. lia.
  - simpl in H. apply andb_prop in H as [H1 H2].
    rewrite final_previousEnd_cons.
    apply IH in H2. simpl in H2. apply Z.leb_le in H1. lia.
Qed.

(** Along a well-formed sequence the stretches are laid end to end. *)
Lemma restore_emitted (sourceCode : string) (l : list Token) :
  forall inC prev,
  ascending prev l = true ->
  restore sourceCode (emitted l inC prev)
  = JS.substring sourceCode prev (offset (final_previousEnd l prev)).
Proof.
  induction l as [|token rest IH]; intros inC prev H.
  - unfold final_previousEnd. simpl. now rewrite substring_nothing.
  - simpl in H. apply andb_prop in H as [H1 H2].
    simpl emitted.
    rewrite restore_app, restore_body_pieces, (IH _ _ H2).
    rewrite final_previousEnd_cons.
    apply Z.leb_le in H1.
    apply substring_join; [lia|].
    left. apply (ascending_final _ _ H2).
Qed.

(** * The claims *)

(** ** Round trip *)

(** C1, as stated, fails: with no comment at all the emitted code slices
    of ["x;\n"] glue to ["x;"], one character short of the source, under
    either engine. *)
Lemma roundtrip_loses_trailing_text :
  glue (code_slices trailing_source
          (transcript_pieces (@allTokens legacy_engine trailing_program)))
    <> trailing_source
  /\ glue (code_slices trailing_source
          (transcript_pieces (@allTokens stable_engine trailing_program)))
    <> trailing_source.
Proof. split; vm_compute; discriminate. Qed.

(** C1, amended: when the range ends of the merged sequence never go
    down, the code slices are consecutive stretches of the source, in
    order and without overlap; putting back, for every block comment, the
    stretch from the previous span's end to the comment's end (the gap
    before it, its delimiters and its body) and, at the end, the text
    after the last span's end gives back the source text. *)
Theorem roundtrip_with_skipped_stretches {engine : ArraySort}
  (sourceCode : string) (output : Program) :
  ascending None (allTokens output) = true ->
  written sourceCode (allTokens output)
  = (render_all sourceCode (transcript_pieces (allTokens output))
     ++ newline)%string
  /\ (restore sourceCode (transcript_pieces (allTokens output))
      ++ JS.substring sourceCode (final_previousEnd (allTokens output) None)
           (sourceLength sourceCode))%string
     = sourceCode.
Proof.
  intros H. split.
  - unfold written. now rewrite transcript_render.
  - unfold transcript_pieces.
    rewrite restore_app, restore_closing, append_empty_r.
    rewrite (restore_emitted _ _ true None H).
    rewrite (substring_none _ (final_previousEnd _ _)).
    rewrite substring_join.
    + apply substring_from_start.
    + apply (ascending_final _ None H).
    + right. unfold sourceLength. lia.
Qed.

Lemma roundtrip_with_skipped_stretches_witness :
  written hello_source (@allTokens stable_engine (hello_program " hello "))
  = (render_all hello_source
       (transcript_pieces (@allTokens stable_engine (hello_program " hello ")))
     ++ newline)%string
  /\ (restore hello_source
        (transcript_pieces (@allTokens stable_engine (hello_program " hello ")))
      ++ JS.substring hello_source
           (final_previousEnd
              (@allTokens stable_engine (hello_program " hello ")) None)
           (sourceLength hello_source))%string
     = hello_source.
Proof.
  apply (@roundtrip_with_skipped_stretches stable_engine hello_source
           (hello_program " hello ")).
  reflexivity.
Defined.

(** ** Code-only input *)

Lemma final_inComment_code (l : list Token) (inC : bool) :
  l <> [] -> Forall (fun t => isComment t = false) l ->
  final_inComment l inC = false.
Proof.
  intros Hne Hall. unfold final_inComment.
  destruct (rev l) as [|x xs] eqn:E.
  - apply (f_equal (@rev Token)) in E. rewrite rev_involutive in E.
    now subst.
  - rewrite Forall_forall in Hall. apply Hall.
    apply in_rev. rewrite E. now left.
Qed.

(** Between non-comment spans the loop emits slices and nothing else. *)
Lemma render_code_run (sourceCode : string) (l : list Token) :
  forall prev,
  Forall (fun t => isComment t = false) l ->
  render_all sourceCode (emitted l false prev)
  = restore sourceCode (emitted l false prev).
Proof.
  induction l as [|token rest IH]; intros prev Hall; [reflexivity|].
  inversion Hall as [|? ? Ht Hrest]; subst.
  simpl. unfold body_pieces. rewrite Ht. simpl.
  now rewrite IH.
Qed.

(** C4, as stated, fails: for the source ["x"] the script writes
    ["```jsx\n```\n"]; nothing separates the opening fence from the code. *)
Lemma code_only_has_no_newline_after_fence :
  written "x" (@allTokens legacy_engine single_x)
    <> ("```js" ++ newline ++ "x" ++ newline ++ "```" ++ newline)%string
  /\ written "x" (@allTokens stable_engine single_x)
    <> ("```js" ++ newline ++ "x" ++ newline ++ "```" ++ newline)%string
  /\ written "x" (@allTokens stable_engine single_x)
     = ("```jsx" ++ newline ++ "```" ++ newline)%string.
Proof. repeat split; vm_compute; discriminate. Qed.

(** C4, amended: with no comments, a non-empty list of tokens none of
    which has the block-comment type, and range ends that never go down in
    the merged sequence, the script writes the opening fence, directly
    followed (no newline) by the source text up to the last token's end,
    then a newline, the closing fence and the final newline; the source
    text appears whole when it ends where the last token ends. *)
Theorem code_only_output {engine : ArraySort}
  (sourceCode : string) (output : Program) :
  Conforming engine ->
  comments output = [] ->
  tokens output <> [] ->
  Forall (fun t => isComment t = false) (tokens output) ->
  ascending None (allTokens output) = true ->
  exists lastEnd,
    final_previousEnd (allTokens output) None = Some lastEnd
    /\ written sourceCode (allTokens output)
       = ("```js" ++ JS.substring sourceCode None lastEnd
          ++ newline ++ "```" ++ newline)%string
    /\ (sourceLength sourceCode <= lastEnd ->
        written sourceCode (allTokens output)
        = ("```js" ++ sourceCode ++ newline ++ "```" ++ newline)%string).
Proof.
  intros Hconf Hc Hne Hall Hasc.
  unfold allTokens in *. rewrite Hc in *. simpl app in *.
  pose proof (sort_Permutation engine Hconf comparator (tokens output))
    as Hperm.
  set (merged := sort comparator (tokens output)) in *.
  assert (Hall' : Forall (fun t => isComment t = false) merged)
    by (eapply Permutation_Forall; eassumption).
  assert (Hne' : merged <> []).
  { intros E. rewrite E in Hperm. apply Permutation_sym in Hperm.
    now apply Permutation_nil in Hperm. }
  destruct merged as [|token rest] eqn:Em; [contradiction|].
  rewrite <- Em in *.
  assert (Hw : written sourceCode merged
    = ("```js" ++ JS.substring sourceCode None
                   (offset (final_previousEnd merged None))
       ++ newline ++ "```" ++ newline)%string).
  { unfold written. rewrite transcript_render. unfold transcript_pieces.
    rewrite (final_inComment_code merged true Hne' Hall').
    rewrite render_all_app.
    rewrite <- (restore_emitted sourceCode merged true None Hasc).
    rewrite Em in *. inversion Hall' as [|? ? Ht Hrest]; subst.
    simpl emitted. unfold body_pieces. rewrite Ht. simpl.
    rewrite (render_code_run _ _ _ Hrest).
    now rewrite !append_assoc. }
  exists (offset (final_previousEnd merged None)). split; [|split].
  - rewrite Em, final_previousEnd_cons.
    unfold final_previousEnd. now destruct (rev rest).
  - exact Hw.
  - intros Hlen. rewrite Hw. unfold sourceLength in Hlen.
    now rewrite (substring_beyond _ _ Hlen).
Qed.

Lemma code_only_output_witness :
  exists lastEnd,
    final_previousEnd (@allTokens stable_engine single_x) None
    = Some lastEnd
    /\ written "x" (@allTokens stable_engine single_x)
       = ("```js" ++ JS.substring "x" None lastEnd
          ++ newline ++ "```" ++ newline)%string
    /\ (sourceLength "x" <= lastEnd ->
        written "x" (@allTokens stable_engine single_x)
        = ("```js" ++ "x" ++ newline ++ "```" ++ newline)%string).
Proof.
  apply (@code_only_output stable_engine "x" single_x).
  - exact stable_conforming.
  - reflexivity.
  - discriminate.
  - repeat constructor.
  - reflexivity.
Defined.

(** ** Where the output stops *)


Lemma In_body_pieces_Slice (inC : bool) (prev from : option Z) (end_ : Z)
  (token : Token) :
  In (Slice from end_) (body_pieces inC prev token) ->
  isComment token = false /\ from = prev /\ end_ = snd (range token).
Proof.
  unfold body_pieces.
  destruct (isComment token), inC; simpl; intros H;
    repeat (destruct H as [H|H]; try discriminate H; try contradiction);
    now inversion H.
Qed.





(** ** Fences *)

Lemma depth_after_app (ps qs : list Piece) : forall open,
  depth_after (ps ++ qs) open
  = match depth_after ps open with
    | Some open' => depth_after qs open'
    | None => None
    end.
Proof.
  induction ps as [|p ps IH]; intros open; simpl; [reflexivity|].
  destruct p, open; auto.
Qed.

(** A well-nested marker sequence has as many opens as closes, up to the
    fence that is open at either end. *)
Lemma depth_after_counts (ps : list Piece) : forall open open',
  depth_after ps open = Some open' ->
  (count_open ps + (if open then 1 else 0)
   = count_close ps + (if open' then 1 else 0))%nat.
Proof.
  induction ps as [|p ps IH]; intros open open' H; simpl in *.
  - inversion H. reflexivity.
  - destruct p, open; try discriminate H; apply IH in H; simpl in *; lia.
Qed.

Lemma depth_after_body_pieces (inC : bool) (prev : option Z) (token : Token) :
  depth_after (body_pieces inC prev token) (negb inC)
  = Some (negb (isComment token)).
Proof.
  unfold body_pieces. now destruct (isComment token), inC.
Qed.

(** The loop keeps "a fence is open" equal to "not [inComment]". *)
Lemma depth_after_emitted (l : list Token) : forall inC prev,
  depth_after (emitted l inC prev) (negb inC)
  = Some (negb (final_inComment l inC)).
Proof.
  induction l as [|token rest IH]; intros inC prev.
  - reflexivity.
  - simpl emitted.
    rewrite depth_after_app, depth_after_body_pieces, IH.
    now rewrite final_inComment_cons.
Qed.

Lemma depth_after_transcript (l : list Token) :
  depth_after (transcript_pieces l) false = Some false.
Proof.
  unfold transcript_pieces.
  rewrite depth_after_app.
  pose proof (depth_after_emitted l true None) as H.
  change (negb true) with false in H.
  rewrite H. unfold closing.
  now destruct (final_inComment l true).
Qed.

(** C2: the markers the script emits open and close alternately, starting
    with an opening one and ending closed, so there are as many opening as
    closing markers and no fence inside a fence; a span contributes a
    marker exactly when its kind differs from the state the loop is in;
    and a closing fence follows the loop exactly when it ends in code. *)
Theorem fence_balance {engine : ArraySort}
  (sourceCode : string) (output : Program) :
  let merged := allTokens output in
  let ps := transcript_pieces merged in
  written sourceCode merged = (render_all sourceCode ps ++ newline)%string
  /\ count_open ps = count_close ps
  /\ depth_after ps false = Some false
  /\ (forall l1 token l2, merged = (l1 ++ token :: l2)%list ->
      let inC := final_inComment l1 true in
      let prev := final_previousEnd l1 None in
      ps = (emitted l1 true None ++ body_pieces inC prev token
            ++ emitted l2 (isComment token) (Some (snd (range token)))
            ++ closing (final_inComment merged true))%list
      /\ fences (body_pieces inC prev token)
         = if Bool.eqb (isComment token) inC then []
           else [if isComment token then CloseFence else OpenFence])
  /\ fences (closing (final_inComment merged true))
     = if final_inComment merged true then [] else [CloseFence].
Proof.
  intros merged ps. repeat split.
  - unfold written. now rewrite transcript_render.
  - pose proof (depth_after_counts ps false false
                  (depth_after_transcript merged)) as H.
    simpl in H. lia.
  - apply depth_after_transcript.
  - unfold ps, transcript_pieces. rewrite H, emitted_app. simpl emitted.
    now rewrite <- !app_assoc.
  - unfold body_pieces.
    destruct (isComment token), (final_inComment l1 true); reflexivity.
  - now destruct (final_inComment merged true).
Qed.

Lemma fence_balance_witness :
  count_open
    (transcript_pieces (@allTokens stable_engine (hello_program " hello ")))
  = count_close
      (transcript_pieces (@allTokens stable_engine (hello_program " hello ")))
  /\ fences
       (body_pieces true (Some 11) (span "Keyword" "var" 12 15 2 0))
     = [OpenFence].
Proof.
  destruct (@fence_balance stable_engine hello_source
              (hello_program " hello ")) as (_ & Hcount & _ & Hstep & _).
  split; [exact Hcount|].
  exact (proj2 (Hstep [hello_comment " hello "]
                  (span "Keyword" "var" 12 15 2 0)
                  (tl hello_tokens) eq_refl)).
Defined.

(** ** Line comments *)

(** C5, as stated, fails in its last part: a line comment that follows a
    block comment (or comes first) finds the loop in prose state and
    triggers the opening fence. *)
Lemma line_comment_opens_fence :
  fences (body_pieces true (Some 7) (span "Line" " b" 8 12 2 0))
  = [OpenFence]
  /\ written two_comments_source (@allTokens legacy_engine two_comments)
     = (" a ```js" ++ newline ++ "// b" ++ newline ++ "```" ++ newline)%string
  /\ written two_comments_source (@allTokens stable_engine two_comments)
     = (" a ```js" ++ newline ++ "// b" ++ newline ++ "```" ++ newline)%string.
Proof. repeat split. Qed.

(** C5, amended: a span is prose exactly when its type is ["Block"]; a
    line comment is handled as code: the callback appends the opening
    fence when, and only when, the loop is in prose state, never the
    closing fence, then the source slice from [previousEnd] to the
    comment's range end, which ends with the comment's own text,
    delimiters included, when the comment starts at or after
    [previousEnd] and lies within the source. *)
Theorem line_comment_is_code (sourceCode : string) (st : State)
  (token : Token) :
  type token = "Line" ->
  (forall t, isComment t = true <-> type t = "Block")
  /\ isComment token = false
  /\ forEach_body sourceCode st token
     = {| str := (str st ++ (if inComment st then "```js" else "")
                  ++ JS.substring sourceCode (previousEnd st)
                       (snd (range token)))%string;
          inComment := false;
          previousEnd := Some (snd (range token)) |}
  /\ (offset (previousEnd st) <= fst (range token) ->
      fst (range token) <= snd (range token) ->
      JS.substring sourceCode (previousEnd st) (snd (range token))
      = (JS.substring sourceCode (previousEnd st) (fst (range token))
         ++ JS.substring sourceCode (Some (fst (range token)))
              (snd (range token)))%string).
Proof.
  intros Hty.
  assert (Hc : isComment token = false).
  { unfold isComment. now rewrite Hty. }
  repeat split.
  - unfold isComment. apply String.eqb_eq.
  - unfold isComment. apply String.eqb_eq.
  - exact Hc.
  - rewrite forEach_body_pieces. unfold body_pieces. rewrite Hc.
    destruct (inComment st); simpl; now rewrite ?append_empty_r.
  - intros H1 H2. symmetry. apply substring_join; auto.
Qed.

Lemma line_comment_is_code_witness :
  forEach_body two_comments_source
    {| str := " a "; inComment := true; previousEnd := Some 7 |}
    (span "Line" " b" 8 12 2 0)
  = {| str := (" a ```js" ++ newline ++ "// b")%string;
       inComment := false;
       previousEnd := Some 12 |}.
Proof.
  destruct (line_comment_is_code two_comments_source
              {| str := " a "; inComment := true; previousEnd := Some 7 |}
              (span "Line" " b" 8 12 2 0) eq_refl) as (_ & _ & H & _).
  rewrite H. reflexivity.
Defined.

(** ** Reading [previousEnd] *)

(** Once [previousEnd] holds a number, every later [substring] call gets
    a number. *)
Lemma later_reads_defined (l : list Token) : forall inC n from end_,
  In (Slice from end_) (emitted l inC (Some n)) -> from <> None.
Proof.
  induction l as [|token rest IH]; intros inC n from end_ Hin.
  - contradiction.
  - simpl in Hin. apply in_app_or in Hin as [Hin|Hin].
    + apply In_body_pieces_Slice in Hin as (_ & -> & _). discriminate.
    + now apply IH in Hin.
Qed.

(** The only [substring] call that can get the undefined value is the one
    for the first span. *)
Lemma undefined_read_is_first (first : Token) (rest : list Token)
  (end_ : Z) :
  In (Slice None end_) (transcript_pieces (first :: rest)) ->
  isComment first = false /\ end_ = snd (range first).
Proof.
  unfold transcript_pieces. simpl emitted. intros H.
  apply in_app_or in H as [H|H].
  - apply in_app_or in H as [H|H].
    + now apply In_body_pieces_Slice in H.
    + now apply later_reads_defined in H.
  - unfold closing in H.
    destruct (negb _); simpl in H; intuition discriminate.
Qed.

(** C6, as stated, fails: when the first span is a token, the code-slice
    branch runs with [previousEnd] still undefined and passes it to
    [substring]. *)
Lemma first_token_reads_undefined :
  previousEnd initial = None
  /\ forEach_body "x" initial (span "Identifier" "x" 0 1 1 0)
     = {| str := ("```js" ++ JS.substring "x" None 1)%string;
          inComment := false;
          previousEnd := Some 1 |}
  /\ In (Slice None 1) (transcript_pieces (@allTokens legacy_engine single_x))
  /\ In (Slice None 1) (transcript_pieces (@allTokens stable_engine single_x)).
Proof.
  repeat split; vm_compute; auto.
Qed.

(** C6, amended: [previousEnd] is undefined only while the first span of
    the merged sequence is processed.  If that span is a block comment the
    variable is not read; if it is anything else the code-slice branch
    passes the undefined value to [substring], which takes it for 0, so
    the first slice starts at the beginning of the source.  Every call of
    the callback leaves a number in [previousEnd], so every later
    [substring] call gets the previous span's range end. *)
Theorem previousEnd_undefined_only_at_first_span {engine : ArraySort}
  (sourceCode : string) (output : Program) (first : Token)
  (rest : list Token) :
  allTokens output = first :: rest ->
  (isComment first = true ->
   forEach_body sourceCode initial first
   = {| str := value first; inComment := true;
        previousEnd := Some (snd (range first)) |})
  /\ (isComment first = false ->
      forEach_body sourceCode initial first
      = {| str := ("```js"
                   ++ JS.substring sourceCode None (snd (range first)))%string;
           inComment := false;
           previousEnd := Some (snd (range first)) |})
  /\ (forall end_, JS.substring sourceCode None end_
                   = JS.substring sourceCode (Some 0) end_)
  /\ (forall st token,
        previousEnd (forEach_body sourceCode st token)
        = Some (snd (range token)))
  /\ (forall from end_,
        In (Slice from end_) (transcript_pieces (allTokens output)) ->
        from = None ->
        isComment first = false /\ end_ = snd (range first)).
Proof.
  intros Hm. rewrite Hm. split; [|split; [|split; [|split]]].
  - intros Hc. unfold forEach_body. now rewrite Hc.
  - intros Hc. unfold forEach_body. now rewrite Hc.
  - reflexivity.
  - reflexivity.
  - intros from end_ Hin ->. now apply undefined_read_is_first in Hin.
Qed.

Lemma previousEnd_undefined_only_at_first_span_witness :
  forEach_body hello_source initial (hello_comment " hello ")
  = {| str := " hello "; inComment := true; previousEnd := Some 11 |}.
Proof.
  exact (proj1 (@previousEnd_undefined_only_at_first_span stable_engine
                  hello_source (hello_program " hello ")
                  (hello_comment " hello ") hello_tokens eq_refl)
           eq_refl).
Defined.

(** ** Ties *)

(** C3, as stated, fails: an insertion sort that asks the comparator with
    the element first and moves it only on a negative answer gets 1 for
    the token against the comment that precedes it in the concatenation,
    and leaves the comment first. *)
Lemma stable_sort_keeps_comment_first :
  tied tied_comment tied_token
  /\ isComment tied_comment = true
  /\ isComment tied_token = false
  /\ @allTokens stable_engine tied_program = [tied_comment; tied_token].
Proof. repeat split. Qed.

(** C3, amended: for a comment and a token with equal start line and
    column the comparator answers 1 both for (comment, token) and for
    (token, comment), so it does not place the token first; where the two
    end up depends on the argument order in which the sort asks.  The
    insertion sort that asks [comparator(predecessor, element)] and moves
    the predecessor behind the element on a positive answer places the
    token before the comment; the insertion sort that asks
    [comparator(element, predecessor)] and moves the element forward only
    on a negative answer leaves the comment before the token. *)
Theorem tie_order_by_engine (c t : Token) (output : Program) :
  tied c t ->
  In c (comments output) ->
  In t (tokens output) ->
  comparator c t = 1
  /\ comparator t c = 1
  /\ before t c (@allTokens legacy_engine output)
  /\ before c t (@allTokens stable_engine output).
Proof.
  intros Htie Hc Ht.
  assert (Htie' : tied t c) by (destruct Htie; now split).
  repeat split.
  - now apply comparator_tied.
  - now apply comparator_tied.
  - apply legacy_reverses_ties; [assumption|]. now apply before_concat.
  - apply stable_keeps_ties; [assumption|]. now apply before_concat.
Qed.

Lemma tie_order_by_engine_witness :
  before tied_token tied_comment (@allTokens legacy_engine tied_program)
  /\ before tied_comment tied_token (@allTokens stable_engine tied_program).
Proof.
  destruct (tie_order_by_engine tied_comment tied_token tied_program)
    as (_ & _ & Hl & Hs).
  - split; reflexivity.
  - now left.
  - now left.
  - now split.
Defined.

(** C9: the comparator never answers 0; for two spans with equal start
    line and column it answers 1 in either argument order, so it is not
    antisymmetric; and it does not settle their order: the two engines,
    which both conform, order such a pair differently. *)
Theorem comparator_asymmetric_on_ties (a b : Token) :
  comparator a b <> 0
  /\ Conforming legacy_engine
  /\ Conforming stable_engine
  /\ (tied a b ->
      comparator a b = 1 /\ comparator b a = 1
      /\ @sort legacy_engine comparator [a; b] = [b; a]
      /\ @sort stable_engine comparator [a; b] = [a; b]).
Proof.
  split; [|split; [|split]].
  - destruct (comparator_values a b) as [H|H]; rewrite H; discriminate.
  - exact legacy_conforming.
  - exact stable_conforming.
  - intros Htie.
    assert (Htie' : tied b a) by (destruct Htie; now split).
    pose proof (comparator_tied a b Htie) as Hab.
    pose proof (comparator_tied b a Htie') as Hba.
    repeat split; try assumption.
    + cbn. unfold passes_legacy. now rewrite Hab.
    + cbn. unfold passes_stable. now rewrite Hba.
Qed.

Lemma comparator_asymmetric_on_ties_witness :
  comparator tied_comment tied_token = 1
  /\ comparator tied_token tied_comment = 1
  /\ @sort legacy_engine comparator [tied_comment; tied_token]
     = [tied_token; tied_comment]
  /\ @sort stable_engine comparator [tied_comment; tied_token]
     = [tied_comment; tied_token].
Proof.
  apply (proj2 (proj2 (proj2
           (comparator_asymmetric_on_ties tied_comment tied_token)))).
  split; reflexivity.
Defined.

(** ** A leading comment *)

(** A sequence whose spans start at strictly increasing positions has one
    admissible order, its own. *)
Lemma strictly_sorted_unique (l : list Token) : forall l',
  StronglySorted (fun x y => comparator x y = -1) l ->
  Permutation l l' ->
  StronglySorted (fun x y => comparator y x <> -1) l' ->
  l' = l.
Proof.
  induction l as [|a r IH]; intros l' Hs Hp Hs'.
  - now apply Permutation_nil in Hp.
  - destruct l' as [|x r'].
    + apply Permutation_sym, Permutation_nil in Hp. discriminate.
    + inversion Hs as [|? ? Hr Ha]; subst.
      inversion Hs' as [|? ? Hr' Hx]; subst.
      assert (E : x = a).
      { assert (Hin : In x (a :: r)).
        { apply (Permutation_in x (Permutation_sym Hp)). now left. }
        destruct Hin as [E|Hin]; [now symmetry|].
        assert (Hin' : In a (x :: r')).
        { apply (Permutation_in a Hp). now left. }
        destruct Hin' as [E|Hin']; [assumption|].
        rewrite Forall_forall in Ha, Hx.
        now destruct (Hx a Hin' (Ha x Hin)). }
      subst x. f_equal. apply IH; auto.
      now apply Permutation_cons_inv in Hp.
Qed.

Lemma sort_strictly_sorted {engine : ArraySort} (l : list Token) :
  Conforming engine ->
  StronglySorted (fun x y => comparator x y = -1) l ->
  sort comparator l = l.
Proof.
  intros Hconf Hs. apply strictly_sorted_unique; auto.
  - now apply sort_Permutation.
  - now apply sort_comparator_ordered.
Qed.

Lemma hello_merged {engine : ArraySort} (body : string) :
  Conforming engine ->
  allTokens (hello_program body) = hello_comment body :: hello_tokens.
Proof.
  intros Hconf. unfold allTokens. apply sort_strictly_sorted; [assumption|].
  simpl. repeat (constructor; [|repeat (constructor; try reflexivity)]).
  constructor.
Qed.

(** The output for ["/* hello */\nvar x = 1;"] whatever text is reported
    as the comment's value. *)
Lemma hello_output {engine : ArraySort} (body : string) :
  Conforming engine ->
  written hello_source (allTokens (hello_program body))
  = (body ++ "```js" ++ (newline ++ "var x = 1;")
     ++ newline ++ "```" ++ newline)%string
  /\ transcript_pieces (allTokens (hello_program body))
     = [ Prose None 11 body; OpenFence;
         Slice (Some 11) 15; Slice (Some 15) 17; Slice (Some 17) 19;
         Slice (Some 19) 21; Slice (Some 21) 22; CloseFence ]
  /\ glue (code_slices hello_source
             (transcript_pieces (allTokens (hello_program body))))
     = (newline ++ "var x = 1;")%string.
Proof.
  intros Hconf. rewrite (hello_merged body Hconf). repeat split.
  unfold written. rewrite transcript_render. simpl.
  now rewrite append_assoc.
Qed.

(** C7, as stated, fails: the parser reports the text between the
    delimiters, [" hello "] with its two blanks, as the comment's value,
    and the script writes it as it is, so the output begins with a blank
    and not with ["hello"]. *)
Lemma leading_comment_output_starts_with_blank :
  String.prefix "hello"
    (written hello_source (@allTokens legacy_engine (hello_program " hello ")))
  = false
  /\ String.prefix "hello"
       (written hello_source
          (@allTokens stable_engine (hello_program " hello ")))
     = false
  /\ JS.substring hello_source (Some 2) 9 = " hello ".
Proof. repeat split. Qed.

(** C7, amended: for ["/* hello */\nvar x = 1;"] with its parsed spans the
    script writes the comment's value [" hello "], blanks included, with
    no fence before it, directly followed by the opening fence, the code
    ["\nvar x = 1;"], a newline and the closing fence, and the final
    newline. *)
Theorem leading_comment_output {engine : ArraySort} :
  Conforming engine ->
  written hello_source (allTokens (hello_program " hello "))
  = (" hello " ++ "```js" ++ (newline ++ "var x = 1;")
     ++ newline ++ "```" ++ newline)%string
  /\ transcript_pieces (allTokens (hello_program " hello "))
     = [ Prose None 11 " hello "; OpenFence;
         Slice (Some 11) 15; Slice (Some 15) 17; Slice (Some 17) 19;
         Slice (Some 19) 21; Slice (Some 21) 22; CloseFence ]
  /\ glue (code_slices hello_source
             (transcript_pieces (allTokens (hello_program " hello "))))
     = (newline ++ "var x = 1;")%string.
Proof. intros Hconf. now apply hello_output. Qed.

Lemma leading_comment_output_witness :
  written hello_source (@allTokens legacy_engine (hello_program " hello "))
  = (" hello ```js" ++ newline ++ "var x = 1;" ++ newline ++ "```"
     ++ newline)%string.
Proof.
  exact (proj1 (@leading_comment_output legacy_engine legacy_conforming)).
Defined.

(** ** Read failure *)

(** C8: when the read hands the callback an error, the script's effects
    are the one read followed by the throw of that very error: nothing
    catches it, the file is not read again and nothing is written. *)
Theorem read_failure_throws {engine : ArraySort} (Error : Type)
  (readFile : string -> Error + string) (parse : string -> Error + Program)
  (file : string) (err : Error) :
  readFile file = inl err ->
  script Error readFile parse file = [ReadFile file; Throw err]
  /\ (forall body, callback Error parse (Some err) body = [Throw err])
  /\ (forall text,
        ~ In (StdoutWrite text) (script Error readFile parse file)).
Proof.
  intros H. unfold script. rewrite H. simpl. repeat split.
  intros text [E|[E|[]]]; discriminate.
Qed.

Lemma read_failure_throws_witness :
  @script stable_engine string (fun _ => inl "ENOENT") (fun _ => inl "parse")
    "missing.js"
  = [ReadFile "missing.js"; Throw "ENOENT"].
Proof.
  exact (proj1 (@read_failure_throws stable_engine string
                  (fun _ => inl "ENOENT") (fun _ => inl "parse")
                  "missing.js" "ENOENT" eq_refl)).
Defined.

(** * Further properties of the transcript script *)

(** ** The comparator as an order *)

(** X1: [comparator] answers -1 exactly when the first span starts at a
    lexicographically smaller (line, column); that relation is
    irreflexive, asymmetric and transitive, and two spans that are not
    tied are ordered one way or the other, with opposite answers for the
    two argument orders. *)
Theorem comparator_strict_order (a b c : Token) :
  (comparator a b = -1 <->
   startLine a < startLine b
   \/ (startLine a = startLine b /\ startColumn a < startColumn b))
  /\ comparator a a = 1
  /\ (comparator a b = -1 -> comparator b a = 1)
  /\ (comparator a b = -1 -> comparator b c = -1 -> comparator a c = -1)
  /\ (~ tied a b -> comparator a b = - comparator b a).
Proof.
  split; [apply comparator_earlier|].
  split; [apply comparator_tied; now split|].
  split; [apply comparator_strict|].
  split.
  - rewrite !comparator_earlier. unfold startLine, startColumn. lia.
  - intros Hnt.
    destruct (comparator_values a b) as [Hab|Hab],
             (comparator_values b a) as [Hba|Hba];
      rewrite Hab, Hba; try reflexivity; exfalso.
    + apply comparator_strict in Hab. congruence.
    + apply Hnt. clear Hnt.
      assert (Ha : comparator a b <> -1) by congruence.
      assert (Hb : comparator b a <> -1) by congruence.
      rewrite comparator_earlier in Ha, Hb.
      unfold tied, startLine, startColumn in *. lia.
Qed.

Lemma comparator_strict_order_witness :
  comparator (span "Keyword" "var" 12 15 2 0) (span "Numeric" "1" 20 21 2 8)
  = - comparator (span "Numeric" "1" 20 21 2 8)
        (span "Keyword" "var" 12 15 2 0).
Proof.
  apply (comparator_strict_order (span "Keyword" "var" 12 15 2 0)
           (span "Numeric" "1" 20 21 2 8) (span "Numeric" "1" 20 21 2 8)).
  unfold tied. vm_compute. intros [_ H]. discriminate H.
Defined.

(** ** Merging does not depend on the engine when no two spans tie *)

Lemma position_tied (x y : Token) : position x = position y <-> tied x y.
Proof.
  unfold position, tied. split.
  - intros H. now inversion H.
  - intros [H1 H2]. now rewrite H1, H2.
Qed.

(** With distinct positions, "none strictly earlier comes later" is
    "strictly ascending". *)
Lemma ordered_untied_strict (l : list Token) :
  NoDup (map position l) ->
  StronglySorted (fun x y => comparator y x <> -1) l ->
  StronglySorted (fun x y => comparator x y = -1) l.
Proof.
  induction l as [|a r IH]; intros Hnd Hs; [constructor|].
  inversion Hnd as [|? ? Hnotin Hnd']; subst.
  inversion Hs as [|? ? Hr Ha]; subst.
  constructor; [now apply IH|].
  rewrite Forall_forall in *. intros y Hy.
  destruct (comparator_values a y) as [E|E]; [assumption|exfalso].
  apply Hnotin. apply in_map_iff. exists y. split; [|assumption].
  apply position_tied.
  assert (H1 : comparator a y <> -1) by congruence.
  pose proof (Ha y Hy) as H2.
  rewrite comparator_earlier in H1, H2.
  unfold tied, startLine, startColumn in *. lia.
Qed.

(** X2: when no two spans of the program start at the same line and
    column, every conforming engine merges them into the same sequence,
    so the text written does not depend on the engine. *)
Theorem merge_is_engine_independent (e1 e2 : ArraySort)
  (sourceCode : string) (output : Program) :
  Conforming e1 -> Conforming e2 ->
  NoDup (map position (comments output ++ tokens output)) ->
  @allTokens e1 output = @allTokens e2 output
  /\ written sourceCode (@allTokens e1 output)
     = written sourceCode (@allTokens e2 output).
Proof.
  intros H1 H2 Hnd.
  assert (E : @allTokens e1 output = @allTokens e2 output).
  { unfold allTokens.
    set (l := (comments output ++ tokens output)%list) in *.
    pose proof (sort_Permutation e1 H1 comparator l) as P1.
    pose proof (sort_Permutation e2 H2 comparator l) as P2.
    apply (strictly_sorted_unique (@sort e2 comparator l)).
    - apply ordered_untied_strict.
      + apply (Permutation_NoDup (Permutation_map position P2) Hnd).
      + now apply sort_comparator_ordered.
    - now rewrite <- P2.
    - now apply sort_comparator_ordered. }
  split; [exact E | now rewrite E].
Qed.

Lemma merge_is_engine_independent_witness :
  @allTokens legacy_engine (hello_program " hello ")
  = @allTokens stable_engine (hello_program " hello ")
  /\ written hello_source (@allTokens legacy_engine (hello_program " hello "))
     = written hello_source
         (@allTokens stable_engine (hello_program " hello ")).
Proof.
  apply (merge_is_engine_independent legacy_engine stable_engine hello_source
           (hello_program " hello ") legacy_conforming stable_conforming).
  repeat constructor; simpl; intuition discriminate.
Defined.

(** ** What each span contributes *)

Lemma prose_texts_app (ps qs : list Piece) :
  prose_texts (ps ++ qs) = (prose_texts ps ++ prose_texts qs)%list.
Proof.
  induction ps as [|p ps IH]; simpl; [reflexivity|].
  destruct p; simpl; now rewrite IH.
Qed.

Lemma slice_ends_app (ps qs : list Piece) :
  slice_ends (ps ++ qs) = (slice_ends ps ++ slice_ends qs)%list.
Proof.
  induction ps as [|p ps IH]; simpl; [reflexivity|].
  destruct p; simpl; now rewrite IH.
Qed.

Lemma prose_texts_emitted (l : list Token) : forall inC prev,
  prose_texts (emitted l inC prev) = map value (filter isComment l).
Proof.
  induction l as [|token rest IH]; intros inC prev; [reflexivity|].
  simpl emitted. rewrite prose_texts_app, IH.
  unfold body_pieces. simpl filter.
  now destruct (isComment token), inC.
Qed.

Lemma slice_ends_emitted (l : list Token) : forall inC prev,
  slice_ends (emitted l inC prev)
  = map (fun t => snd (range t)) (filter (fun t => negb (isComment t)) l).
Proof.
  induction l as [|token rest IH]; intros inC prev; [reflexivity|].
  simpl emitted. rewrite slice_ends_app, IH.
  unfold body_pieces. simpl filter.
  now destruct (isComment token), inC.
Qed.

(** X3: the text written is the rendering of the pieces followed by a
    newline, and among those pieces the value of every block comment
    occurs exactly once, in merged order, and every other span has exactly
    one code slice, which stops at that span's range end, again in merged
    order. *)
Theorem one_piece_per_span {engine : ArraySort}
  (sourceCode : string) (output : Program) :
  written sourceCode (allTokens output)
  = (render_all sourceCode (transcript_pieces (allTokens output))
     ++ newline)%string
  /\ prose_texts (transcript_pieces (allTokens output))
     = map value (filter isComment (allTokens output))
  /\ slice_ends (transcript_pieces (allTokens output))
     = map (fun t => snd (range t))
         (filter (fun t => negb (isComment t)) (allTokens output)).
Proof.
  split.
  - unfold written. now rewrite transcript_render.
  - unfold transcript_pieces.
    rewrite prose_texts_app, slice_ends_app.
    rewrite prose_texts_emitted, slice_ends_emitted.
    unfold closing. destruct (negb _); simpl; now rewrite !app_nil_r.
Qed.

Lemma placed_app (ps qs : list Piece) : forall open,
  placed (ps ++ qs) open
  = match placed ps open with
    | Some open' => placed qs open'
    | None => None
    end.
Proof.
  induction ps as [|p ps IH]; intros open; simpl; [reflexivity|].
  destruct p, open; auto.
Qed.

Lemma placed_body_pieces (inC : bool) (prev : option Z) (token : Token) :
  placed (body_pieces inC prev token) (negb inC)
  = Some (negb (isComment token)).
Proof.
  unfold body_pieces. now destruct (isComment token), inC.
Qed.

Lemma placed_emitted (l : list Token) : forall inC prev,
  placed (emitted l inC prev) (negb inC)
  = Some (negb (final_inComment l inC)).
Proof.
  induction l as [|token rest IH]; intros inC prev.
  - reflexivity.
  - simpl emitted.
    rewrite placed_app, placed_body_pieces, IH.
    now rewrite final_inComment_cons.
Qed.

(** X4: in the text written, every code slice lies inside a fence and
    every comment value outside of one. *)
Theorem code_inside_prose_outside {engine : ArraySort}
  (sourceCode : string) (output : Program) :
  written sourceCode (allTokens output)
  = (render_all sourceCode (transcript_pieces (allTokens output))
     ++ newline)%string
  /\ placed (transcript_pieces (allTokens output)) false = Some false.
Proof.
  split.
  - unfold written. now rewrite transcript_render.
  - unfold transcript_pieces. rewrite placed_app.
    pose proof (placed_emitted (allTokens output) true None) as H.
    change (negb true) with false in H. rewrite H.
    unfold closing. now destruct (final_inComment _ true).
Qed.

(** ** How many fences *)




(** ** Comments only *)

Lemma render_prose_run (sourceCode : string) (l : list Token) :
  forall prev,
  Forall (fun t => isComment t = true) l ->
  render_all sourceCode (emitted l true prev) = glue (map value l)
  /\ fences (emitted l true prev) = [].
Proof.
  induction l as [|token rest IH]; intros prev Hall; [now split|].
  inversion Hall as [|? ? Ht Hrest]; subst.
  simpl emitted. unfold body_pieces. rewrite Ht. simpl.
  destruct (IH (Some (snd (range token))) Hrest) as [H1 H2].
  now rewrite H1, H2.
Qed.

Lemma final_inComment_prose (l : list Token) :
  Forall (fun t => isComment t = true) l -> final_inComment l true = true.
Proof.
  intros Hall. unfold final_inComment.
  destruct (rev l) as [|x xs] eqn:E; [reflexivity|].
  rewrite Forall_forall in Hall. apply Hall.
  apply in_rev. rewrite E. now left.
Qed.

(** X6: when the program has no span other than block comments (none at
    all included), no fence is written: the output is the comment values
    one after the other, in merged order, and the final newline. *)
Theorem comments_only_output {engine : ArraySort}
  (sourceCode : string) (output : Program) :
  Conforming engine ->
  Forall (fun t => isComment t = true) (comments output ++ tokens output) ->
  written sourceCode (allTokens output)
  = (glue (map value (allTokens output)) ++ newline)%string
  /\ fences (transcript_pieces (allTokens output)) = []
  /\ (comments output = [] -> tokens output = [] ->
      written sourceCode (allTokens output) = newline).
Proof.
  intros Hconf Hall.
  pose proof (sort_Permutation engine Hconf comparator
                (comments output ++ tokens output)) as Hperm.
  fold (allTokens output) in Hperm.
  assert (Hall' : Forall (fun t => isComment t = true) (allTokens output))
    by (eapply Permutation_Forall; eassumption).
  destruct (render_prose_run sourceCode _ None Hall') as [Hr Hf].
  assert (Hw : written sourceCode (allTokens output)
               = (glue (map value (allTokens output)) ++ newline)%string).
  { unfold written. rewrite transcript_render. unfold transcript_pieces.
    rewrite (final_inComment_prose _ Hall'). simpl closing.
    now rewrite app_nil_r, Hr. }
  split; [exact Hw|]. split.
  - unfold transcript_pieces.
    rewrite (final_inComment_prose _ Hall'). simpl closing.
    now rewrite app_nil_r.
  - intros Hc Ht. rewrite Hw.
    rewrite Hc, Ht in Hperm. simpl in Hperm.
    apply Permutation_nil in Hperm. now rewrite Hperm.
Qed.

Lemma comments_only_output_witness :
  written "/* a *//* b */"
    (@allTokens stable_engine
       {| comments := [span "Block" " a " 0 7 1 0; span "Block" " b " 7 14 1 7];
          tokens := [] |})
  = (" a  b " ++ newline)%string.
Proof.
  apply (@comments_only_output stable_engine "/* a *//* b */"
           {| comments := [span "Block" " a " 0 7 1 0;
                           span "Block" " b " 7 14 1 7];
              tokens := [] |} stable_conforming).
  repeat constructor.
Defined.

(** ** What the loop does not look at *)

Lemma body_pieces_relevant (inC : bool) (prev : option Z) (t1 t2 : Token) :
  relevant t1 = relevant t2 ->
  body_pieces inC prev t1 = body_pieces inC prev t2.
Proof.
  unfold relevant, body_pieces. intros H.
  injection H as Hc He Hv. rewrite He. rewrite <- Hc in *.
  destruct (isComment t1); simpl in *; [now rewrite Hv | reflexivity].
Qed.

Lemma emitted_relevant (l1 : list Token) : forall l2 inC prev,
  map relevant l1 = map relevant l2 ->
  emitted l1 inC prev = emitted l2 inC prev
  /\ final_inComment l1 inC = final_inComment l2 inC.
Proof.
  induction l1 as [|t1 r1 IH]; intros [|t2 r2] inC prev H;
    try discriminate H; [now split|].
  assert (Ht : relevant t1 = relevant t2)
    by exact (f_equal (hd (relevant t1)) H).
  assert (Hr : map relevant r1 = map relevant r2)
    by exact (f_equal (@tl _) H).
  simpl emitted. rewrite !final_inComment_cons.
  rewrite (body_pieces_relevant _ _ _ _ Ht).
  unfold relevant in Ht. injection Ht as Hc He _.
  rewrite Hc, He.
  destruct (IH r2 (isComment t2) (Some (snd (range t2))) Hr) as [E1 E2].
  now rewrite E1, E2.
Qed.

(** X7: the text written depends on a merged span only through its kind
    (block comment or not), its range end and, for a block comment, its
    value: range starts, the type and text of tokens, and lines and
    columns play no part once the sequence is merged. *)
Theorem output_reads_kind_end_value (sourceCode : string)
  (l1 l2 : list Token) :
  map relevant l1 = map relevant l2 ->
  written sourceCode l1 = written sourceCode l2.
Proof.
  intros H. unfold written. rewrite !transcript_render.
  unfold transcript_pieces.
  destruct (emitted_relevant l1 l2 true None H) as [E1 E2].
  now rewrite E1, E2.
Qed.

Lemma output_reads_kind_end_value_witness :
  written "x;" [span "Identifier" "x" 0 1 1 0; span "Punctuator" ";" 1 2 1 1]
  = written "x;" [span "Keyword" "" 1 1 7 7; span "Line" "?" 0 2 3 3].
Proof.
  apply (output_reads_kind_end_value "x;"
           [span "Identifier" "x" 0 1 1 0; span "Punctuator" ";" 1 2 1 1]
           [span "Keyword" "" 1 1 7 7; span "Line" "?" 0 2 3 3]).
  reflexivity.
Defined.

(** ** The script's effects *)

(** X8: when the file is read but the parser throws, the script's effects
    are the read followed by the throw of the parser's error; nothing is
    written, not even the part of a transcript. *)
Theorem parse_failure_throws {engine : ArraySort} (Error : Type)
  (readFile : string -> Error + string) (parse : string -> Error + Program)
  (file body : string) (err : Error) :
  readFile file = inr body ->
  parse body = inl err ->
  script Error readFile parse file = [ReadFile file; Throw err]
  /\ (forall text,
        ~ In (StdoutWrite text) (script Error readFile parse file)).
Proof.
  intros Hr Hp. unfold script, callback. rewrite Hr, Hp. split.
  - reflexivity.
  - intros text [E|[E|[]]]; discriminate.
Qed.

Lemma parse_failure_throws_witness :
  @script stable_engine string (fun _ => inr "var = ;")
    (fun _ => inl "Unexpected token =") "broken.js"
  = [ReadFile "broken.js"; Throw "Unexpected token ="].
Proof.
  exact (proj1 (@parse_failure_throws stable_engine string
                  (fun _ => inr "var = ;") (fun _ => inl "Unexpected token =")
                  "broken.js" "var = ;" "Unexpected token ="
                  eq_refl eq_refl)).
Defined.

(** X9: every run of the script has exactly two effects.  The first is
    the read of the file; the second is the throw of the read's error when
    the read fails, the throw of the parser's error when the read succeeds
    and the parser throws, and otherwise the one write, of the transcript
    of the parsed program followed by a newline.  So the file is read
    once, and there is a write exactly when both the read and the parse
    succeed. *)
Theorem script_reads_once_then_one_outcome {engine : ArraySort}
  (Error : Type) (readFile : string -> Error + string)
  (parse : string -> Error + Program) (file : string) :
  (exists outcome,
     script Error readFile parse file = [ReadFile file; outcome]
     /\ (forall f, outcome <> ReadFile f)
     /\ (is_write outcome = true <->
         exists body output,
           readFile file = inr body /\ parse body = inr output))
  /\ (forall e, readFile file = inl e ->
      script Error readFile parse file = [ReadFile file; Throw e])
  /\ (forall body e, readFile file = inr body -> parse body = inl e ->
      script Error readFile parse file = [ReadFile file; Throw e])
  /\ (forall body output,
        readFile file = inr body -> parse body = inr output ->
        script Error readFile parse file
        = [ReadFile file;
           StdoutWrite
             (transcript body (allTokens output) ++ newline)%string]).
Proof.
  split; [|split; [|split]].
  - unfold script, callback.
    destruct (readFile file) as [e|body] eqn:Hr.
    + exists (Throw e). split; [reflexivity|]. split; [discriminate|].
      split; [discriminate|]. intros (b & o & H & _). discriminate.
    + destruct (parse body) as [e|output] eqn:Hp.
      * exists (Throw e). split; [reflexivity|]. split; [discriminate|].
        split; [discriminate|]. intros (b & o & H1 & H2).
        inversion H1; subst. congruence.
      * exists (StdoutWrite (written body (allTokens output))).
        split; [reflexivity|]. split; [discriminate|].
        split; [|reflexivity]. intros _. now exists body, output.
  - intros e Hr. unfold script, callback. now rewrite Hr.
  - intros body e Hr Hp. unfold script, callback. now rewrite Hr, Hp.
  - intros body output Hr Hp. unfold script, callback. now rewrite Hr, Hp.
Qed.

Lemma script_reads_once_then_one_outcome_witness :
  @script stable_engine string (fun _ => inr "x")
    (fun _ => inr single_x) "x.js"
  = [ReadFile "x.js";
     StdoutWrite
       (transcript "x" (@allTokens stable_engine single_x) ++ newline)%string]
  /\ @script stable_engine string (fun _ => inl "EACCES")
       (fun _ => inr single_x) "x.js"
     = [ReadFile "x.js"; Throw "EACCES"].
Proof.
  split.
  - exact (proj2 (proj2 (proj2
             (@script_reads_once_then_one_outcome stable_engine string
                (fun _ => inr "x") (fun _ => inr single_x) "x.js")))
             "x" single_x eq_refl eq_refl).
  - exact (proj1 (proj2
             (@script_reads_once_then_one_outcome stable_engine string
                (fun _ => inl "EACCES") (fun _ => inr single_x) "x.js"))
             "EACCES" eq_refl).
Defined.

(** ** Spans that end before their predecessor *)

Lemma substring_swap (s : string) (a b : Z) :
  JS.substring s (Some a) b = JS.substring s (Some b) a.
Proof.
  unfold JS.substring. cbn zeta.
  set (x := Z.min (Z.max a 0) (Z.of_nat (String.length s))).
  set (y := Z.min (Z.max b 0) (Z.of_nat (String.length s))).
  now rewrite (Z.min_comm x y), (Z.max_comm x y).
Qed.

(** X10: take two consecutive non-comment spans of which the second ends
    at or before the first one's end, and at or after [previousEnd].  The
    loop does not fail on the second: after the opening fence, if the
    state was prose, it writes the slice from [previousEnd] to the first
    span's end, and then, [substring] swapping its arguments, the text
    between the two ends, the tail of that slice, a second time. *)
Theorem overlapping_span_repeats_text (sourceCode : string) (st : State)
  (t1 t2 : Token) :
  isComment t1 = false -> isComment t2 = false ->
  offset (previousEnd st) <= snd (range t2) ->
  snd (range t2) <= snd (range t1) ->
  JS.substring sourceCode (previousEnd st) (snd (range t1))
  = (JS.substring sourceCode (previousEnd st) (snd (range t2))
     ++ JS.substring sourceCode (Some (snd (range t2))) (snd (range t1)))%string
  /\ str (forEach sourceCode [t1; t2] st)
     = (str st
        ++ (if inComment st then "```js" else "")
        ++ JS.substring sourceCode (previousEnd st) (snd (range t1))
        ++ JS.substring sourceCode (Some (snd (range t2)))
             (snd (range t1)))%string.
Proof.
  intros H1 H2 Hp He. split.
  - symmetry. apply substring_join; auto.
  - rewrite forEach_pieces. destruct st as [s inC prev].
    simpl. unfold body_pieces. rewrite H1, H2.
    destruct inC; simpl;
      rewrite (substring_swap _ (snd (range t1)));
      now rewrite append_empty_r.
Qed.

Lemma overlapping_span_repeats_text_witness :
  str (forEach "abcdef" [span "B" "bcde" 1 5 1 1; span "C" "c" 2 3 1 2]
         {| str := "```jsa"; inComment := false; previousEnd := Some 1 |})
  = "```jsabcdede".
Proof.
  destruct (overlapping_span_repeats_text "abcdef"
              {| str := "```jsa"; inComment := false; previousEnd := Some 1 |}
              (span "B" "bcde" 1 5 1 1) (span "C" "c" 2 3 1 2)
              eq_refl eq_refl) as [_ H].
  - simpl. lia.
  - simpl. lia.
  - rewrite H. reflexivity.
Defined.

(** * Properties of the tutorial's delayed computations *)

Section DelayedComputationFacts.

Context {R : Type} {node : @Node R}.

(** ** [chain] *)

(** X11: [chain] composes like the bind of a monad.  A computation that
    succeeds with a value, chained with a transformation, runs the
    transformation on that value with the caller's callback; and chaining
    two transformations one after the other is the same as chaining the
    first with the second chained inside it. *)
Theorem chain_laws (m : @Delayed R) (f g : Value -> @Delayed R)
  (err v : Value) (callback : @Callback R) :
  (truthy err = false ->
   chain (fun k => k err v) f callback = f v callback)
  /\ (respects_callbacks m ->
      chain (chain m f) g callback
      = chain m (fun x => chain (f x) g) callback).
Proof.
  split.
  - intros H. unfold chain. now rewrite H.
  - intros Hm. unfold chain. apply Hm. intros e x.
    destruct (truthy e); reflexivity.
Qed.

(** X12: an error at the head of a pipeline of chained transformations
    reaches the caller's callback unchanged, with no value, and none of
    the transformations runs. *)
Theorem chain_passes_errors_through (dc : @Delayed R)
  (transformations : list (Value -> @Delayed R)) (err v : Value)
  (callback : @Callback R) :
  truthy err = true ->
  (forall k, dc k = k err v) ->
  fold_left (chain) transformations dc callback
  = callback err (match transformations with [] => v | _ => undefined end).
Proof.
  intros He. revert dc v.
  induction transformations as [|tr rest IH]; intros dc v Hdc.
  - simpl. apply Hdc.
  - simpl fold_left.
    rewrite (IH (chain dc tr) undefined).
    + now destruct rest.
    + intros k. unfold chain. rewrite Hdc. now rewrite He.
Qed.

End DelayedComputationFacts.

Lemma chain_laws_witness :
  @chain Value (fun k => k null (Str "a")) (fun x k => k null x)
    (fun _ value => value)
  = Str "a"
  /\ @chain Value
       (@chain Value (@profilesFolder Value) (fun x k => k null x))
       (fun x k => k null x) (fun _ value => value)
     = @chain Value (@profilesFolder Value)
         (fun x => @chain Value (fun k => k null x) (fun x k => k null x))
         (fun _ value => value).
Proof.
  destruct (@chain_laws Value (@profilesFolder Value)
              (fun x k => k null x) (fun x k => k null x)
              null (Str "a") (fun _ value => value)) as [H1 H2].
  split.
  - now apply H1.
  - apply H2. intros k1 k2 H. apply H.
Defined.

Lemma chain_passes_errors_through_witness :
  fold_left (@chain Value)
    [ (fun x k => k null x); (fun _ k => k null (Str "never")) ]
    (fun k => k (ErrorObject "ENOENT") (Str "partial"))
    (fun err value => match value with undefined => err | _ => value end)
  = ErrorObject "ENOENT".
Proof.
  rewrite (@chain_passes_errors_through Value
             (fun k => k (ErrorObject "ENOENT") (Str "partial"))
             [ (fun x k => k null x); (fun _ k => k null (Str "never")) ]
             (ErrorObject "ENOENT") (Str "partial")).
  - reflexivity.
  - reflexivity.
  - reflexivity.
Defined.

(** ** [getProfile] *)

Section GetProfileFacts.

Context {R : Type} {node : @Node R}.

(** X13: the three versions of [getProfile] do the same work: the one
    with the callbacks written out is the two-fold [chain] in which the
    file's content goes through [String] before [safeParse]; the two
    [chain] versions are equal and hand the content to [safeParse] as it
    is. *)
Theorem getProfile_versions (profileName : string) :
  getProfileByName profileName
  = chain
      (chain (profilesFolder) (fun profilesFolder_ =>
         call (bind fs_readFile null
                   [Val (path_join profilesFolder_
                           (Str (profileName ++ ".json")))])))
      (fun content => safeParse (js_String content))
  /\ getProfile_chained profileName = getProfile profileName.
Proof. split; reflexivity. Qed.

(** X14: [getProfile] reads one file, the one named after the profile in
    [~/.profiles], through [fs.readFile] with the path as first argument.
    If that read answers with an error the caller's callback gets the
    error and no value, and nothing is parsed; otherwise the content goes
    to [safeParse] together with the caller's callback. *)
Theorem getProfile_outcome (profileName : string) (err content : Value)
  (callback : @Callback R) :
  (forall k,
     fs_readFile null
       [Val (path_join (Str "~/.profiles") (Str (profileName ++ ".json")));
        Fun k]
     = k err content) ->
  getProfile profileName callback
  = (if truthy err then callback err undefined
     else safeParse content callback)
  /\ getProfileByName profileName callback
     = (if truthy err then callback err undefined
        else safeParse (js_String content) callback).
Proof.
  intros H. split.
  - unfold getProfile, chain, profilesFolder, call, bind. simpl.
    rewrite H. now destruct (truthy err).
  - unfold getProfileByName, profilesFolder, call, bind. simpl.
    now rewrite H.
Qed.

End GetProfileFacts.

Lemma getProfile_outcome_witness :
  @getProfile Value echo_node "me" (fun _ value => value) = Buffer "{}"
  /\ @getProfileByName Value echo_node "me" (fun _ value => value)
     = Str "{}"
  /\ @getProfile Value failing_node "me"
       (fun err value => match value with undefined => err | _ => value end)
     = ErrorObject "ENOENT".
Proof.
  destruct (@getProfile_outcome Value echo_node "me" null (Buffer "{}")
              (fun _ value => value) (fun k => eq_refl)) as [H1 H2].
  destruct (@getProfile_outcome Value failing_node "me"
              (ErrorObject "ENOENT") undefined
              (fun err value =>
                 match value with undefined => err | _ => value end)
              (fun k => eq_refl)) as [H3 _].
  split; [|split].
  - rewrite H1. reflexivity.
  - rewrite H2. reflexivity.
  - rewrite H3. reflexivity.
Defined.
